(** * ThreadSafeQueue<T> (namespace solar): a monitor-style blocking queue

  The class owns a [std::deque<T> q_] and a flag [bool stopped_{false}],
  both guarded by one [std::mutex m_], plus one [std::condition_variable
  cv_].  Every public method takes [m_] before it looks at either field,
  so each method body is one atomic transition of the pair
  [(q_, stopped_)].  The embedding below keeps that shape:

  - the guarded state is a record with the two fields;
  - a method body is a computation in a small monad over that state,
    whose results are: the call returned (value, new state, the signals
    it sent on [cv_]), the call is suspended in [cv_.wait], or the call
    ran into behaviour the C++ standard leaves undefined
    ([front()] / [pop_front()] of an empty deque);
  - [cv_.wait(lock, pred)] is [while (!pred()) wait(lock);]: the call gets
    past it exactly in a state where [pred] holds, and the rest of the
    body runs in that same state, the lock being held from the last
    evaluation of [pred] to the return. *)

From Stdlib Require Import Bool List Lia.
Import ListNotations.

Set Implicit Arguments.

(** ** The monitor monad *)

(** The two ways a method signals the condition variable. *)
Inductive cv_signal : Type :=
| notify_one
| notify_all.

Section Monitor.

Variable St : Type.

Inductive outcome (A : Type) : Type :=
| Returned (a : A) (s : St) (w : list cv_signal)
| Blocked
| Fault.

Definition M (A : Type) : Type := St -> outcome A.

Definition ret {A} (a : A) : M A :=
  fun s => Returned a s [].

Definition bind {A B} (m : M A) (f : A -> M B) : M B :=
  fun s =>
    match m s with
    | Returned a s1 w1 =>
        match f a s1 with
        | Returned b s2 w2 => Returned b s2 (w1 ++ w2)
        | Blocked _ => Blocked _
        | Fault _ => Fault _
        end
    | Blocked _ => Blocked _
    | Fault _ => Fault _
    end.

Definition fmap {A B} (g : A -> B) (m : M A) : M B :=
  bind m (fun a => ret (g a)).

(** Reading and writing the guarded fields. *)
Definition read {A} (g : St -> A) : M A :=
  fun s => Returned (g s) s [].

Definition write (g : St -> St) : M unit :=
  fun s => Returned tt (g s) [].

(** [cv_.wait(lock, pred)]. *)
Definition cv_wait (pred : St -> bool) : M unit :=
  fun s => if pred s then Returned tt s [] else Blocked _.

(** [cv_.notify_one()] and [cv_.notify_all()]. *)
Definition cv_notify (sig : cv_signal) : M unit :=
  fun s => Returned tt s [sig].

(** A library call with a precondition: outside it the behaviour is
    undefined. *)
Definition defined {A} (o : option A) : M A :=
  fun s => match o with
           | Some a => Returned a s []
           | None => Fault _
           end.

(** Running a list of calls one after the other, collecting the results. *)
Fixpoint seqM {A} (ms : list (M A)) : M (list A) :=
  match ms with
  | [] => ret []
  | m :: ms' =>
      bind m (fun a => bind (seqM ms') (fun r => ret (a :: r)))
  end.

(** Running calls for their effect only. *)
Fixpoint forM_ {A} (xs : list A) (f : A -> M unit) : M unit :=
  match xs with
  | [] => ret tt
  | x :: xs' => bind (f x) (fun _ => forM_ xs' f)
  end.

(** What is left of an outcome when only the state matters. *)
Definition state_after {A} (o : outcome A) : option St :=
  match o with
  | Returned _ s _ => Some s
  | Blocked _ => None
  | Fault _ => None
  end.

End Monitor.

Arguments Blocked {St A}.
Arguments Fault {St A}.
Arguments ret {St A} a _.
Arguments read {St A} g _.
Arguments write {St} g _.
Arguments cv_wait {St} pred _.
Arguments cv_notify {St} sig _.
Arguments defined {St A} o _.

Declare Scope monitor_scope.
Delimit Scope monitor_scope with monitor.

Notation "x <- m ;; k" := (bind m (fun x => k))
(at level 100, m at next level, right associativity) : monitor_scope.
Notation "m ;; k" := (bind m (fun _ => k))
(at level 100, right associativity) : monitor_scope.

Open Scope monitor_scope.

(** ** std::deque<T>, as far as the queue uses it *)

Module Deque.
Section Deque.

Variable T : Type.

Definition deque : Type := list T.

Definition empty (d : deque) : bool :=
  match d with
  | [] => true
  | _ :: _ => false
  end.

Definition size (d : deque) : nat := length d.

Definition push_back (d : deque) (x : T) : deque := d ++ [x].

(** [front()] and [pop_front()] require a non-empty deque. *)
Definition front (d : deque) : option T :=
  match d with
  | [] => None
  | x :: _ => Some x
  end.

Definition pop_front (d : deque) : option deque :=
  match d with
  | [] => None
  | _ :: d' => Some d'
  end.

Definition clear (d : deque) : deque := [].

End Deque.
End Deque.

(** ** The queue *)

Section ThreadSafeQueue.

Variable T : Type.

Record ThreadSafeQueue : Type := mkQueue {
  q_ : Deque.deque T;
  stopped_ : bool
}.

(** [ThreadSafeQueue() = default], with [bool stopped_{false}]. *)
Definition init : ThreadSafeQueue :=
  {| q_ := []; stopped_ := false |}.

Definition set_q (d : Deque.deque T) (s : ThreadSafeQueue) : ThreadSafeQueue :=
  {| q_ := d; stopped_ := stopped_ s |}.

Definition set_stopped (b : bool) (s : ThreadSafeQueue) : ThreadSafeQueue :=
  {| q_ := q_ s; stopped_ := b |}.

Local Abbreviation Method := (M ThreadSafeQueue).

(** [q_.front()] followed by [q_.pop_front()], each on the current
    contents. *)
Definition q_front : Method T :=
  d <- read q_ ;; defined (Deque.front d).

Definition q_pop_front : Method unit :=
  d <- read q_ ;;
  d' <- defined (Deque.pop_front d) ;;
  write (set_q d').

(** [void push(const T& item)]: the early [return] leaves before
    [cv_.notify_one()]. *)
Definition push (item : T) : Method unit :=
  stopped <- read stopped_ ;;
  if stopped then ret tt
  else
    write (fun s => set_q (Deque.push_back (q_ s) item) s) ;;
    cv_notify notify_one.

(** [void push(T&& item)]: the same body, the item moved in. *)
Definition push_move (item : T) : Method unit :=
  stopped <- read stopped_ ;;
  if stopped then ret tt
  else
    write (fun s => set_q (Deque.push_back (q_ s) item) s) ;;
    cv_notify notify_one.

(** [std::optional<T> wait_pop()]. *)
Definition wait_pop : Method (option T) :=
  cv_wait (fun s => stopped_ s || negb (Deque.empty (q_ s))) ;;
  e <- read (fun s => Deque.empty (q_ s)) ;;
  if e then ret None
  else
    item <- q_front ;;
    q_pop_front ;;
    ret (Some item).

(** [std::optional<T> try_pop()]. *)
Definition try_pop : Method (option T) :=
  e <- read (fun s => Deque.empty (q_ s)) ;;
  if e then ret None
  else
    item <- q_front ;;
    q_pop_front ;;
    ret (Some item).

(** [void stop()]. *)
Definition stop : Method unit :=
  write (set_stopped true) ;;
  cv_notify notify_all.

(** [void clear()]. *)
Definition clear : Method unit :=
  write (fun s => set_q (Deque.clear (q_ s)) s).

(** [std::size_t size() const]: the deque's own count, passed on as it
    is. *)
Definition size : Method nat :=
  read (fun s => Deque.size (q_ s)).

(** [bool stopped() const]. *)
Definition stopped : Method bool :=
  read stopped_.

(** *** The public interface as one type of calls *)

Inductive op : Type :=
| OpPush (item : T)
| OpPushMove (item : T)
| OpWaitPop
| OpTryPop
| OpStop
| OpClear
| OpSize
| OpStopped.

Inductive retval : Type :=
| RVoid
| ROptional (o : option T)
| RSize (n : nat)
| RBool (b : bool).

Definition call (o : op) : Method retval :=
  match o with
  | OpPush item => fmap (fun _ => RVoid) (push item)
  | OpPushMove item => fmap (fun _ => RVoid) (push_move item)
  | OpWaitPop => fmap ROptional wait_pop
  | OpTryPop => fmap ROptional try_pop
  | OpStop => fmap (fun _ => RVoid) stop
  | OpClear => fmap (fun _ => RVoid) clear
  | OpSize => fmap RSize size
  | OpStopped => fmap RBool stopped
  end.

(** A call that returns takes the queue from one state to the next; a
    suspended call leaves it where it is. *)
Inductive step : ThreadSafeQueue -> op -> ThreadSafeQueue -> Prop :=
| step_returned o s r s' w :
    call o s = Returned r s' w -> step s o s'.

Inductive reachable : ThreadSafeQueue -> ThreadSafeQueue -> Prop :=
| reach_here s : reachable s s
| reach_step s o s1 s2 :
    step s o s1 -> reachable s1 s2 -> reachable s s2.

(** The two overloads of [push], for statements about either. *)
Inductive push_kind : Type :=
| ByCopy
| ByMove.

Definition push_by (k : push_kind) (item : T) : Method unit :=
  match k with
  | ByCopy => push item
  | ByMove => push_move item
  end.

(** The two retrieval methods, for statements about either. *)
Inductive pop_kind : Type :=
| ByWaitPop
| ByTryPop.

Definition pop (k : pop_kind) : Method (option T) :=
  match k with
  | ByWaitPop => wait_pop
  | ByTryPop => try_pop
  end.

End ThreadSafeQueue.

Arguments init {T}.
Arguments wait_pop {T} _.
Arguments try_pop {T} _.
Arguments stop {T} _.
Arguments clear {T} _.
Arguments size {T} _.
Arguments stopped {T} _.
Arguments OpWaitPop {T}.
Arguments OpTryPop {T}.
Arguments OpStop {T}.
Arguments OpClear {T}.
Arguments OpSize {T}.
Arguments OpStopped {T}.
Arguments RVoid {T}.
Arguments RSize {T} n.
Arguments RBool {T} b.

(** ** The wait predicate, the destructor and histories of calls *)

Section Histories.

Variable T : Type.

(** The predicate [wait_pop] hands to [cv_.wait]:
    [[&] { return stopped_ || !q_.empty(); }]. *)
Definition wait_pred (s : ThreadSafeQueue T) : bool :=
  stopped_ s || negb (Deque.empty (q_ s)).

(** [~ThreadSafeQueue() { stop(); }]: the body; the members are released
    after it. *)
Definition destructor : M (ThreadSafeQueue T) unit :=
  stop.

(** A history: the calls that returned, each with its result, in the
    order in which they held the lock. *)
Definition history : Type := list (op T * retval T).

Inductive run : ThreadSafeQueue T -> history -> ThreadSafeQueue T -> Prop :=
| run_done s : run s [] s
| run_call s o r s1 w h s2 :
    call o s = Returned r s1 w ->
    run s1 h s2 ->
    run s ((o, r) :: h) s2.

(** The items a history handed to its callers, oldest first. *)
Fixpoint delivered (h : history) : list T :=
  match h with
  | [] => []
  | (_, ROptional (Some x)) :: h' => x :: delivered h'
  | _ :: h' => delivered h'
  end.

(** The items of the [push] calls of a history made while the flag was
    clear, the flag being [b] at its start. *)
Fixpoint accepted (b : bool) (h : history) : list T :=
  match h with
  | [] => []
  | (OpPush item, _) :: h' | (OpPushMove item, _) :: h' =>
      if b then accepted b h' else item :: accepted b h'
  | (OpStop, _) :: h' => accepted true h'
  | _ :: h' => accepted b h'
  end.

Definition is_clear (o : op T) : bool :=
  match o with
  | OpClear => true
  | _ => false
  end.

Definition is_stop (o : op T) : bool :=
  match o with
  | OpStop => true
  | _ => false
  end.

Definition is_push (o : op T) : bool :=
  match o with
  | OpPush _ | OpPushMove _ => true
  | _ => false
  end.

Definition calls (h : history) : list (op T) := map fst h.

End Histories.

Arguments destructor {T} _.
Arguments run_done {T} s.

(** Two histories on a queue of numbers.  The first pushes 1 and 2, takes
    1, stops, pushes 3 (dropped), takes 2 and finds the stream ended; the
    second pushes 1, clears, pushes 2 and takes it. *)
Definition history_with_stop : history nat :=
  [ (OpPush 1, RVoid); (OpPushMove 2, RVoid);
    (OpWaitPop, ROptional (Some 1)); (OpStop, RVoid);
    (OpPush 3, RVoid); (OpTryPop, ROptional (Some 2));
    (OpWaitPop, ROptional None) ].

Definition history_with_clear : history nat :=
  [ (OpPush 1, RVoid); (OpClear, RVoid);
    (OpPush 2, RVoid); (OpTryPop, ROptional (Some 2)) ].

(** ** The methods with the exceptions that pass through them

    The method bodies above treat a [T] as a plain value.  In C++ three
    things a body does can throw: taking [m_] ([std::system_error]), the
    allocation inside [q_.push_back] ([std::bad_alloc]), and the copy or
    move constructor of [T], which [push_back], [T item = std::move(...)]
    and [return item;] run.  The class marks nothing [noexcept] and
    catches nothing, so whatever is thrown leaves the call, the lock
    being released on the way out.  (Destructors of [T], run by
    [pop_front] and [clear], are not among them: a container's element
    type must not throw from its destructor.)  [Exn] gives the same
    bodies with these three made explicit; which of them throw is a
    parameter. *)

Inductive exn : Type :=
| system_error
| bad_alloc
| thrown_by_T.

Inductive result (A : Type) : Type :=
| Ok (a : A)
| Threw (e : exn).

Arguments Threw {A} e.

Module Exn.
Section Exn.

Variable T : Type.

(** What throws: taking the lock; growing a deque that holds [d]; copying
    or moving a given value of [T]. *)
Record env : Type := mkEnv {
  lock_throws : bool;
  alloc_throws : Deque.deque T -> bool;
  copy_throws : T -> bool;
  move_throws : T -> bool
}.

Variable E : env.

Definition MX (A : Type) : Type := M (ThreadSafeQueue T) (result A).

Definition retX {A} (a : A) : MX A := ret (Ok a).

Definition raise {A} (e : exn) : MX A := ret (Threw e).

Definition bindX {A B} (m : MX A) (f : A -> MX B) : MX B :=
  bind m (fun r => match r with
                   | Ok a => f a
                   | Threw e => ret (Threw e)
                   end).

(** A step that cannot throw. *)
Definition lift {A} (m : M (ThreadSafeQueue T) A) : MX A :=
  fmap (@Ok A) m.

Local Notation "x <- m ;; k" := (bindX m (fun x => k))
  (at level 100, m at next level, right associativity).
Local Notation "m ;; k" := (bindX m (fun _ => k))
  (at level 100, right associativity).

(** [std::lock_guard<std::mutex> lock(m_)], [std::unique_lock] alike. *)
Definition lock_m : MX unit :=
  if lock_throws E then raise system_error else retX tt.

(** [T(const T&)] and [T(T&&)]: the new object has the value of the old
    one, unless the constructor throws. *)
Definition copy_T (x : T) : MX T :=
  if copy_throws E x then raise thrown_by_T else retX x.

Definition move_T (x : T) : MX T :=
  if move_throws E x then raise thrown_by_T else retX x.

(** [q_.push_back(item)] and [q_.push_back(std::move(item))]: room is
    made, then the element is constructed in it; if either throws the
    deque is as it was. *)
Definition q_push_back_copy (item : T) : MX unit :=
  d <- lift (read (@q_ T)) ;;
  if alloc_throws E d then raise bad_alloc
  else
    x <- copy_T item ;;
    lift (write (set_q (Deque.push_back d x))).

Definition q_push_back_move (item : T) : MX unit :=
  d <- lift (read (@q_ T)) ;;
  if alloc_throws E d then raise bad_alloc
  else
    x <- move_T item ;;
    lift (write (set_q (Deque.push_back d x))).

Definition push (item : T) : MX unit :=
  lock_m ;;
  stopped <- lift (read (@stopped_ T)) ;;
  if stopped then retX tt
  else
    q_push_back_copy item ;;
    lift (cv_notify notify_one).

Definition push_move (item : T) : MX unit :=
  lock_m ;;
  stopped <- lift (read (@stopped_ T)) ;;
  if stopped then retX tt
  else
    q_push_back_move item ;;
    lift (cv_notify notify_one).

(** [T item = std::move(q_.front()); q_.pop_front(); return item;]: one
    move out of the deque, one more into the returned optional. *)
Definition take_front : MX (option T) :=
  front <- lift (@q_front T) ;;
  item <- move_T front ;;
  lift (@q_pop_front T) ;;
  returned <- move_T item ;;
  retX (Some returned).

Definition wait_pop : MX (option T) :=
  lock_m ;;
  lift (cv_wait (fun s => stopped_ s || negb (Deque.empty (q_ s)))) ;;
  e <- lift (read (fun s => Deque.empty (q_ s))) ;;
  if e then retX None else take_front.

Definition try_pop : MX (option T) :=
  lock_m ;;
  e <- lift (read (fun s => Deque.empty (q_ s))) ;;
  if e then retX None else take_front.

Definition stop : MX unit :=
  lock_m ;;
  lift (write (set_stopped true)) ;;
  lift (cv_notify notify_all).

Definition clear : MX unit :=
  lock_m ;;
  lift (write (fun s => set_q (Deque.clear (q_ s)) s)).

Definition size : MX nat :=
  lock_m ;;
  lift (read (fun s => Deque.size (q_ s))).

Definition stopped : MX bool :=
  lock_m ;;
  lift (read (@stopped_ T)).

Definition call (o : op T) : MX (retval T) :=
  match o with
  | OpPush item => _ <- push item ;; retX RVoid
  | OpPushMove item => _ <- push_move item ;; retX RVoid
  | OpWaitPop => r <- wait_pop ;; retX (ROptional r)
  | OpTryPop => r <- try_pop ;; retX (ROptional r)
  | OpStop => _ <- stop ;; retX RVoid
  | OpClear => _ <- clear ;; retX RVoid
  | OpSize => n <- size ;; retX (RSize n)
  | OpStopped => b <- stopped ;; retX (RBool b)
  end.

End Exn.
End Exn.

(** Nothing throws; and: only the copy constructor of the payload
    throws. *)
Definition env_nothrow (T : Type) : Exn.env T :=
  {| Exn.lock_throws := false;
     Exn.alloc_throws := fun _ => false;
     Exn.copy_throws := fun _ => false;
     Exn.move_throws := fun _ => false |}.

Definition env_copy_throws (T : Type) : Exn.env T :=
  {| Exn.lock_throws := false;
     Exn.alloc_throws := fun _ => false;
     Exn.copy_throws := fun _ => true;
     Exn.move_throws := fun _ => false |}.

(** ** Equations of the methods

    Each method body, run on a state, written out by cases on the two
    fields. *)

Lemma bind_returned {St A B} (m : M St A) (f : A -> M St B)
  (s0 : St) (a : A) (s1 : St) (w1 : list cv_signal) :
  m s0 = Returned a s1 w1 ->
  bind m f s0 =
    match f a s1 with
    | Returned b s2 w2 => Returned b s2 (w1 ++ w2)
    | Blocked => Blocked
    | Fault => Fault
    end.
Proof.
  intros E. unfold bind. now rewrite E.
Qed.

Arguments bind_returned {St A B m} f {s0 a s1 w1} _.

Section Equations.

Variable T : Type.

Implicit Types (s : ThreadSafeQueue T) (item x : T) (d : Deque.deque T).

Lemma set_q_same s : set_q (q_ s) s = s.
Proof. now destruct s. Qed.

Lemma push_eq item s :
  push item s =
    if stopped_ s then Returned tt s []
    else Returned tt (set_q (q_ s ++ [item]) s) [notify_one].
Proof.
  destruct s as [d [|]]; reflexivity.
Qed.

Lemma push_move_eq item : push_move item = push item.
Proof. reflexivity. Qed.

Lemma push_by_eq k item s : push_by k item s = push item s.
Proof. now destruct k. Qed.

Lemma wait_pop_eq s :
  wait_pop s =
    match q_ s with
    | [] => if stopped_ s then Returned None s [] else Blocked
    | x :: d => Returned (Some x) (set_q d s) []
    end.
Proof.
  destruct s as [[|x d] [|]]; reflexivity.
Qed.

Lemma try_pop_eq s :
  try_pop s =
    match q_ s with
    | [] => Returned None s []
    | x :: d => Returned (Some x) (set_q d s) []
    end.
Proof.
  destruct s as [[|x d] b]; reflexivity.
Qed.

Lemma stop_eq s : stop s = Returned tt (set_stopped true s) [notify_all].
Proof. reflexivity. Qed.

Lemma clear_eq s : clear s = Returned tt (set_q [] s) [].
Proof. reflexivity. Qed.

(** On a non-empty buffer the two retrieval methods agree. *)
Lemma pop_cons k s x d :
  q_ s = x :: d -> pop k s = Returned (Some x) (set_q d s) [].
Proof.
  intros E. destruct k; simpl.
  - rewrite wait_pop_eq, E. reflexivity.
  - rewrite try_pop_eq, E. reflexivity.
Qed.

End Equations.

(** ** Retrieval: [wait_pop] and [try_pop] *)

Section Retrieval.

Variable T : Type.

Implicit Types (s : ThreadSafeQueue T) (x : T) (d : Deque.deque T).

(** C1: a [wait_pop] call returns [std::nullopt] exactly in a state where
    the queue is stopped and its buffer is empty, the state (left as it
    is) in which the call completes; on a non-empty buffer the call
    returns an item, whatever the flag. *)
Theorem wait_pop_nullopt_iff s :
  (forall s' w,
      wait_pop s = Returned None s' w <->
      stopped_ s = true /\ q_ s = [] /\ s' = s /\ w = [])
  /\ (q_ s <> [] -> exists x s' w, wait_pop s = Returned (Some x) s' w).
Proof.
  rewrite wait_pop_eq. split.
  - intros s' w. destruct (q_ s) as [|x d] eqn:Eq.
    + destruct (stopped_ s) eqn:Es; split.
      * intros H. inversion H. auto.
      * intros (_ & _ & -> & ->). reflexivity.
      * discriminate.
      * intros (H & _). discriminate H.
    + split; [discriminate | intros (_ & H & _); discriminate H].
  - intros Hne. destruct (q_ s) as [|x d]; [contradiction|].
    exists x, (set_q d s), []. reflexivity.
Qed.

(** C5: [try_pop] on an empty buffer returns [std::nullopt] and leaves the
    queue as it is, whatever the stopped flag; on a non-empty buffer it
    removes the front element and returns it; it is never suspended. *)
Theorem try_pop_spec s :
  (q_ s = [] -> try_pop s = Returned None s [])
  /\ (forall x d, q_ s = x :: d ->
        try_pop s = Returned (Some x) {| q_ := d; stopped_ := stopped_ s |} [])
  /\ try_pop s <> Blocked.
Proof.
  rewrite try_pop_eq.
  case_eq (q_ s).
  - intros _. repeat split; try discriminate.
  - intros x d _. repeat split; try discriminate.
    intros y d' E. injection E as -> ->. reflexivity.
Qed.

(** C10: a retrieval that finds the buffer [x :: d] returns [x] and
    leaves exactly [d]; and no retrieval that returns, with an item or
    without, changes the stopped flag. *)
Theorem pop_removes_front_only (k : pop_kind) s :
  (forall x d, q_ s = x :: d ->
      pop k s = Returned (Some x) {| q_ := d; stopped_ := stopped_ s |} [])
  /\ (forall r s' w, pop k s = Returned r s' w -> stopped_ s' = stopped_ s).
Proof.
  split.
  - intros x d E. now apply pop_cons.
  - intros r s' w. destruct k; simpl.
    + rewrite wait_pop_eq.
      destruct (q_ s); [destruct (stopped_ s) eqn:Es|];
        intros H; inversion H; subst; auto.
    + rewrite try_pop_eq.
      destruct (q_ s); intros H; inversion H; subst; auto.
Qed.

End Retrieval.

(** ** [push], [stop] and [clear] *)

Section Updates.

Variable T : Type.

Implicit Types (s : ThreadSafeQueue T) (item : T).

(** C4: on a stopped queue either overload of [push] returns with the
    queue exactly as it was (same buffer, flag still set), sends no signal
    and does not fail; [size()] asked afterwards gives the count it gave
    before. *)
Theorem push_after_stop_noop s item :
  stopped_ s = true ->
  push item s = Returned tt s []
  /\ push_move item s = Returned tt s []
  /\ (push item ;; size) s = size s.
Proof.
  intros Hs.
  assert (E : push item s = Returned tt s []) by (rewrite push_eq, Hs; reflexivity).
  repeat split; try exact E.
  rewrite (bind_returned _ E). reflexivity.
Qed.

Lemma set_stopped_twice (b : bool) s :
  set_stopped b (set_stopped b s) = set_stopped b s.
Proof. reflexivity. Qed.

Lemma stops_state (n : nat) s :
  state_after (seqM (repeat (@stop T) (S n)) s) = Some (set_stopped true s).
Proof.
  revert s. induction n as [|n IH]; intros s.
  - reflexivity.
  - change (repeat (@stop T) (S (S n))) with (@stop T :: repeat (@stop T) (S n)).
    cbn [seqM].
    rewrite (bind_returned _ (stop_eq s)).
    specialize (IH (set_stopped true s)).
    rewrite set_stopped_twice in IH.
    unfold bind at 1.
    destruct (seqM (repeat (@stop T) (S n)) (set_stopped true s));
      simpl in IH |- *; congruence.
Qed.

(** C6: [stop] called twice, or any number of times from one up, leaves
    the queue in the state one call leaves it in: the buffer it had, the
    flag set. *)
Theorem stop_idempotent s :
  state_after (stop s) = Some {| q_ := q_ s; stopped_ := true |}
  /\ state_after ((stop ;; stop) s) = state_after (stop s)
  /\ forall n, state_after (seqM (repeat (@stop T) (S n)) s) = state_after (stop s).
Proof.
  repeat split.
  intros n. now rewrite stops_state.
Qed.

(** C7: [clear] leaves an empty buffer and the stopped flag it found, so
    [size()] then gives 0; on a queue that is not stopped a [push] after
    [clear] appends its item. *)
Theorem clear_keeps_stopped s :
  clear s = Returned tt {| q_ := []; stopped_ := stopped_ s |} []
  /\ (clear ;; size) s = Returned 0 {| q_ := []; stopped_ := stopped_ s |} []
  /\ (clear ;; stopped) s =
       Returned (stopped_ s) {| q_ := []; stopped_ := stopped_ s |} []
  /\ (stopped_ s = false ->
      forall item,
        (clear ;; push item) s =
          Returned tt {| q_ := [item]; stopped_ := false |} [notify_one]).
Proof.
  repeat split.
  intros Hs item.
  rewrite (bind_returned _ (clear_eq s)), push_eq.
  unfold set_q; simpl. rewrite Hs. reflexivity.
Qed.

End Updates.

(** ** Sequences of calls: order of delivery and shutdown *)

Section Sequences.

Variable T : Type.

Implicit Types (s : ThreadSafeQueue T) (d vs rest : Deque.deque T).

(** Pushes on a queue that is not stopped append their items, oldest
    first, and each one signals one waiter. *)
Lemma pushes_append (pvs : list (push_kind * T)) :
  forall s,
    stopped_ s = false ->
    forM_ pvs (fun p => push_by (fst p) (snd p)) s =
      Returned tt (set_q (q_ s ++ map snd pvs) s)
               (repeat notify_one (length pvs)).
Proof.
  induction pvs as [|[k v] pvs IH]; intros s Hs.
  - simpl. rewrite app_nil_r, set_q_same. reflexivity.
  - cbn [forM_ fst snd map length repeat].
    assert (E : push_by k v s = Returned tt (set_q (q_ s ++ [v]) s) [notify_one]).
    { rewrite push_by_eq, push_eq, Hs. reflexivity. }
    rewrite (bind_returned _ E), IH by exact Hs.
    simpl. rewrite <- app_assoc. reflexivity.
Qed.

(** As many retrievals as there are items in a prefix of the buffer hand
    that prefix out in order and leave the rest. *)
Lemma pops_take_prefix (ks : list pop_kind) :
  forall vs rest (b : bool),
    length ks = length vs ->
    seqM (map (@pop T) ks) {| q_ := vs ++ rest; stopped_ := b |} =
      Returned (map Some vs) {| q_ := rest; stopped_ := b |} [].
Proof.
  induction ks as [|k ks IH]; intros [|v vs] rest b Hlen;
    try discriminate Hlen.
  - reflexivity.
  - cbn [map seqM].
    rewrite (bind_returned _
               (@pop_cons T k {| q_ := v :: vs ++ rest; stopped_ := b |}
                          v (vs ++ rest) eq_refl)).
    unfold set_q; cbn [stopped_].
    rewrite (bind_returned _ (IH vs rest b (eq_add_S _ _ Hlen))).
    reflexivity.
Qed.

(** C2: from the queue as constructed, pushing [v1..vn] (pairwise
    distinct, by either overload) and then calling [wait_pop] or [try_pop]
    [n] times, in any mix, returns [v1..vn] in that order and leaves the
    queue as constructed. *)
Theorem fifo_order (pvs : list (push_kind * T)) (ks : list pop_kind) :
  NoDup (map snd pvs) ->
  length ks = length pvs ->
  (forM_ pvs (fun p => push_by (fst p) (snd p)) ;; seqM (map (@pop T) ks)) init =
    Returned (map Some (map snd pvs)) init (repeat notify_one (length pvs)).
Proof.
  intros _ Hlen.
  rewrite (bind_returned _ (@pushes_append pvs init eq_refl)).
  unfold set_q, init; cbn [q_ stopped_ app].
  rewrite <- (app_nil_r (map snd pvs)) at 1.
  rewrite pops_take_prefix by (now rewrite length_map).
  now rewrite app_nil_r.
Qed.

(** On a stopped queue, one [wait_pop] per buffered item and one more. *)
Lemma wait_pops_drain d :
  seqM (repeat (@wait_pop T) (length d + 1)) {| q_ := d; stopped_ := true |} =
    Returned (map Some d ++ [None]) {| q_ := []; stopped_ := true |} [].
Proof.
  induction d as [|x d IH].
  - reflexivity.
  - cbn [length Nat.add repeat seqM map app].
    rewrite (bind_returned _
               (@pop_cons T ByWaitPop {| q_ := x :: d; stopped_ := true |}
                          x d eq_refl)).
    unfold set_q; cbn [stopped_].
    rewrite (bind_returned _ IH). reflexivity.
Qed.

(** C3: with [k] items buffered, [stop()] followed by [k + 1] calls of
    [wait_pop]: the first [k] return the buffered items in order, the
    last returns [std::nullopt], and the queue ends stopped and empty. *)
Theorem drain_before_close s :
  (stop ;; seqM (repeat (@wait_pop T) (length (q_ s) + 1))) s =
    Returned (map Some (q_ s) ++ [None])
             {| q_ := []; stopped_ := true |} [notify_all].
Proof.
  rewrite (bind_returned _ (stop_eq s)).
  unfold set_stopped. rewrite wait_pops_drain. reflexivity.
Qed.

End Sequences.

(** ** The interface as a whole *)

Section Interface.

Variable T : Type.

Implicit Types (s : ThreadSafeQueue T) (o : op T).

Lemma call_eq o s :
  call o s =
    match o with
    | OpPush item | OpPushMove item =>
        if stopped_ s then Returned RVoid s []
        else Returned RVoid (set_q (q_ s ++ [item]) s) [notify_one]
    | OpWaitPop =>
        match q_ s with
        | [] => if stopped_ s then Returned (ROptional None) s [] else Blocked
        | x :: d => Returned (ROptional (Some x)) (set_q d s) []
        end
    | OpTryPop =>
        match q_ s with
        | [] => Returned (ROptional None) s []
        | x :: d => Returned (ROptional (Some x)) (set_q d s) []
        end
    | OpStop => Returned RVoid (set_stopped true s) [notify_all]
    | OpClear => Returned RVoid (set_q [] s) []
    | OpSize => Returned (RSize (length (q_ s))) s []
    | OpStopped => Returned (RBool (stopped_ s)) s []
    end.
Proof.
  destruct o, s as [[|x d] [|]]; reflexivity.
Qed.

(** The precondition of [front()] is a real one: without the emptiness
    test in front of it the call is undefined. *)
Lemma q_front_empty_fault (b : bool) :
  q_front {| q_ := @nil T; stopped_ := b |} = Fault.
Proof. reflexivity. Qed.

Lemma step_keeps_stopped o s s' :
  step s o s' -> stopped_ s = true -> stopped_ s' = true.
Proof.
  intros Hstep Hs. inversion Hstep as [o0 s0 r s0' w Hcall]; subst.
  rewrite call_eq, Hs in Hcall.
  destruct o; try destruct (q_ s); inversion Hcall; subst; auto.
Qed.

(** On a stopped queue no call is suspended. *)
Lemma stopped_call_returns o s :
  stopped_ s = true -> exists s', step s o s'.
Proof.
  intros Hs.
  destruct (call o s) as [r s' w| |] eqn:E.
  - exists s'. econstructor. exact E.
  - rewrite call_eq, Hs in E.
    destruct o; try destruct (q_ s); discriminate E.
  - rewrite call_eq in E.
    destruct o; try destruct (q_ s); try destruct (stopped_ s);
      discriminate E.
Qed.

(** C8: once the stopped flag is set, every call of the interface
    returns and leaves it set, and so does every sequence of calls: no
    state with the flag clear is reachable from one with the flag set. *)
Theorem stopped_monotonic s :
  stopped_ s = true ->
  (forall o, exists s', step s o s')
  /\ (forall o s', step s o s' -> stopped_ s' = true)
  /\ (forall s', reachable s s' -> stopped_ s' = true).
Proof.
  intros Hs. repeat split.
  - intros o. now apply stopped_call_returns.
  - intros o s' Hstep. exact (step_keeps_stopped Hstep Hs).
  - intros s' Hreach. induction Hreach as [s|s o s1 s2 Hstep _ IH].
    + exact Hs.
    + apply IH. exact (step_keeps_stopped Hstep Hs).
Qed.

(** With the payload taken as a plain value, no call runs into undefined
    behaviour: a call either returns, or it is [wait_pop] suspended on a
    queue that is empty and not stopped; and a returned [std::nullopt]
    comes from one of the two retrieval methods on an empty buffer, with
    the queue left as it was. *)
Lemma call_never_undefined o s :
  call o s <> Fault
  /\ (call o s = Blocked <->
      o = OpWaitPop /\ stopped_ s = false /\ q_ s = [])
  /\ (call o s = Blocked \/ exists r s' w, call o s = Returned r s' w)
  /\ (forall s' w,
        call o s = Returned (ROptional None) s' w ->
        (o = OpWaitPop \/ o = OpTryPop) /\ q_ s = [] /\ s' = s).
Proof.
  rewrite call_eq.
  destruct o; destruct (q_ s) as [|x d]; destruct (stopped_ s);
    (split; [discriminate|]);
    (split; [split; [try discriminate; auto
                    | intros (Ho & Hst & Hq); try discriminate; auto]|]);
    (split; [try (left; reflexivity); right; eauto|]);
    intros s' w H; try discriminate H; inversion H; subst; auto.
Qed.

End Interface.

(** ** The methods run on small queues *)

Example push_push_pop_pop :
  (push 1 ;; push 2 ;; a <- wait_pop ;; b <- wait_pop ;; ret (a, b)) init =
    Returned (Some 1, Some 2) init [notify_one; notify_one].
Proof. reflexivity. Qed.

Example push_stop_pop_pop :
  (push 1 ;; stop ;; a <- wait_pop ;; b <- wait_pop ;; ret (a, b)) init =
    Returned (Some 1, None) {| q_ := []; stopped_ := true |}
             [notify_one; notify_all].
Proof. reflexivity. Qed.

Example stop_then_wait_pop :
  (stop ;; wait_pop) (@init nat) =
    Returned None {| q_ := []; stopped_ := true |} [notify_all].
Proof. reflexivity. Qed.

Example wait_pop_on_new_queue : wait_pop (@init nat) = Blocked.
Proof. reflexivity. Qed.

Example push_dropped_after_stop :
  (stop ;; push 1 ;; size) init =
    Returned 0 {| q_ := []; stopped_ := true |} [notify_all].
Proof. reflexivity. Qed.

(** ** The theorems at concrete queues of numbers *)

(** The buffer [7; 8] on a queue that is not stopped: [wait_pop] hands
    out 7; stopped and empty: [wait_pop] returns [std::nullopt]. *)
Lemma wait_pop_nullopt_iff_witness :
  q_ {| q_ := [7; 8]; stopped_ := false |} <> []
  /\ (exists x s' w,
        wait_pop {| q_ := [7; 8]; stopped_ := false |} = Returned (Some x) s' w)
  /\ wait_pop {| q_ := @nil nat; stopped_ := true |} =
       Returned None {| q_ := []; stopped_ := true |} [].
Proof.
  split; [simpl; discriminate|]. split.
  - apply (proj2 (wait_pop_nullopt_iff {| q_ := [7; 8]; stopped_ := false |})).
    simpl; discriminate.
  - apply (proj1 (wait_pop_nullopt_iff {| q_ := @nil nat; stopped_ := true |})).
    repeat split; reflexivity.
Defined.

Lemma try_pop_spec_witness :
  q_ {| q_ := [3; 4]; stopped_ := true |} = [3; 4]
  /\ try_pop {| q_ := [3; 4]; stopped_ := true |} =
       Returned (Some 3) {| q_ := [4]; stopped_ := true |} []
  /\ q_ {| q_ := @nil nat; stopped_ := false |} = []
  /\ try_pop {| q_ := @nil nat; stopped_ := false |} =
       Returned None {| q_ := []; stopped_ := false |} [].
Proof.
  split; [reflexivity|]. split.
  - apply (proj1 (proj2 (try_pop_spec {| q_ := [3; 4]; stopped_ := true |}))).
    reflexivity.
  - split; [reflexivity|].
    apply (proj1 (try_pop_spec {| q_ := @nil nat; stopped_ := false |})).
    reflexivity.
Defined.

Lemma pop_removes_front_only_witness :
  q_ {| q_ := [1; 2; 3]; stopped_ := false |} = 1 :: [2; 3]
  /\ pop ByWaitPop {| q_ := [1; 2; 3]; stopped_ := false |} =
       Returned (Some 1) {| q_ := [2; 3]; stopped_ := false |} []
  /\ stopped_ {| q_ := [2; 3]; stopped_ := false |} =
       stopped_ {| q_ := [1; 2; 3]; stopped_ := false |}.
Proof.
  split; [reflexivity|].
  pose proof (pop_removes_front_only ByWaitPop
                {| q_ := [1; 2; 3]; stopped_ := false |}) as [Hfront Hflag].
  split.
  - apply Hfront. reflexivity.
  - apply (Hflag (Some 1) _ []). reflexivity.
Defined.

Lemma push_after_stop_noop_witness :
  stopped_ {| q_ := [5]; stopped_ := true |} = true
  /\ push 9 {| q_ := [5]; stopped_ := true |} =
       Returned tt {| q_ := [5]; stopped_ := true |} [].
Proof.
  split; [reflexivity|].
  apply (push_after_stop_noop {| q_ := [5]; stopped_ := true |} 9).
  reflexivity.
Defined.

Lemma clear_keeps_stopped_witness :
  stopped_ {| q_ := [1; 2]; stopped_ := false |} = false
  /\ (clear ;; push 6) {| q_ := [1; 2]; stopped_ := false |} =
       Returned tt {| q_ := [6]; stopped_ := false |} [notify_one].
Proof.
  split; [reflexivity|].
  apply (clear_keeps_stopped {| q_ := [1; 2]; stopped_ := false |}).
  reflexivity.
Defined.

Lemma NoDup_1_2_3 : NoDup [1; 2; 3].
Proof.
  repeat constructor; simpl; intuition discriminate.
Defined.

Lemma fifo_order_witness :
  NoDup (map snd [(ByCopy, 1); (ByMove, 2); (ByCopy, 3)])
  /\ length [ByWaitPop; ByTryPop; ByWaitPop] =
       length [(ByCopy, 1); (ByMove, 2); (ByCopy, 3)]
  /\ (forM_ [(ByCopy, 1); (ByMove, 2); (ByCopy, 3)]
            (fun p => push_by (fst p) (snd p)) ;;
      seqM (map (@pop nat) [ByWaitPop; ByTryPop; ByWaitPop])) init =
       Returned [Some 1; Some 2; Some 3] init
                [notify_one; notify_one; notify_one].
Proof.
  split; [exact NoDup_1_2_3|]. split; [reflexivity|].
  apply (fifo_order [(ByCopy, 1); (ByMove, 2); (ByCopy, 3)]
                    [ByWaitPop; ByTryPop; ByWaitPop]).
  - exact NoDup_1_2_3.
  - reflexivity.
Defined.

(** A stopped queue still holding 4: [clear] returns and the flag stays
    set; so it does after [try_pop], [push] and [clear] in a row. *)
Lemma stopped_monotonic_witness :
  stopped_ {| q_ := [4]; stopped_ := true |} = true
  /\ (exists s', step {| q_ := [4]; stopped_ := true |} OpClear s')
  /\ stopped_ {| q_ := @nil nat; stopped_ := true |} = true.
Proof.
  split; [reflexivity|].
  pose proof (@stopped_monotonic nat {| q_ := [4]; stopped_ := true |} eq_refl)
    as (Hret & _ & Hreach).
  split.
  - apply Hret.
  - apply Hreach.
    apply reach_step with (o := OpTryPop) (s1 := {| q_ := []; stopped_ := true |}).
    { apply step_returned with (r := ROptional (Some 4)) (w := []). reflexivity. }
    apply reach_step with (o := OpPush 1) (s1 := {| q_ := []; stopped_ := true |}).
    { apply step_returned with (r := RVoid) (w := []). reflexivity. }
    apply reach_step with (o := OpClear) (s1 := {| q_ := []; stopped_ := true |}).
    { apply step_returned with (r := RVoid) (w := []). reflexivity. }
    apply reach_here.
Defined.

(** ** Histories of calls: what goes in comes out, once and in order *)

Section HistoryFacts.

Variable T : Type.

Implicit Types (s : ThreadSafeQueue T) (o : op T) (h : history T).

Lemma run_reachable s h s' : run s h s' -> reachable s s'.
Proof.
  induction 1 as [s|s o r s1 w h s2 Hcall _ IH].
  - apply reach_here.
  - apply reach_step with (o := o) (s1 := s1); [|exact IH].
    now apply step_returned with (r := r) (w := w).
Qed.

(** One call that is not [clear]: what it hands out, then the buffer it
    leaves and what is pushed later, is the buffer it found and what is
    pushed from it on. *)
Lemma call_conserves_items o s r s1 w h :
  call o s = Returned r s1 w ->
  is_clear o = false ->
  q_ s ++ accepted (stopped_ s) ((o, r) :: h) =
    delivered [(o, r)] ++ q_ s1 ++ accepted (stopped_ s1) h.
Proof.
  intros Hcall Ho. rewrite call_eq in Hcall.
  destruct o; try discriminate Ho; simpl.
  - destruct (stopped_ s) eqn:Es; inversion Hcall; subst; simpl.
    + now rewrite Es.
    + now rewrite Es, <- app_assoc.
  - destruct (stopped_ s) eqn:Es; inversion Hcall; subst; simpl.
    + now rewrite Es.
    + now rewrite Es, <- app_assoc.
  - destruct (q_ s) as [|x d] eqn:Eq.
    + destruct (stopped_ s) eqn:Es; inversion Hcall; subst; simpl.
      now rewrite Eq, Es.
    + inversion Hcall; subst. reflexivity.
  - destruct (q_ s) as [|x d] eqn:Eq; inversion Hcall; subst; simpl.
    + now rewrite Eq.
    + reflexivity.
  - inversion Hcall; subst. reflexivity.
  - inversion Hcall; subst. reflexivity.
  - inversion Hcall; subst. reflexivity.
Qed.

Lemma delivered_cons o r h :
  delivered ((o, r) :: h) = delivered [(o, r)] ++ delivered h.
Proof.
  destruct r as [|[x|]| |]; reflexivity.
Qed.

(** X1: along a history without [clear], the buffer at the start followed
    by the items pushed while the flag was clear is the same list as the
    items handed out followed by the buffer at the end: nothing is lost,
    nothing is handed out twice, and items leave in the order they
    came. *)
Theorem history_conserves_items s h s' :
  run s h s' ->
  forallb (fun o => negb (is_clear o)) (calls h) = true ->
  q_ s ++ accepted (stopped_ s) h = delivered h ++ q_ s'.
Proof.
  induction 1 as [s|s o r s1 w h s2 Hcall _ IH]; intros Hnc.
  - simpl. now rewrite app_nil_r.
  - simpl in Hnc. apply andb_prop in Hnc as [Ho Hnc].
    apply negb_true_iff in Ho.
    rewrite (@call_conserves_items _ _ _ _ _ h Hcall Ho), (IH Hnc).
    rewrite (delivered_cons o r h). now rewrite app_assoc.
Qed.

(** X2: at the end of a history without [clear], [size()] returns the
    count it started from, plus the pushes made while the flag was clear,
    minus the items handed out. *)
Theorem size_accounts_for_history s h s' :
  run s h s' ->
  forallb (fun o => negb (is_clear o)) (calls h) = true ->
  length (delivered h) <= length (q_ s) + length (accepted (stopped_ s) h)
  /\ size s' =
       Returned (length (q_ s) + length (accepted (stopped_ s) h)
                 - length (delivered h)) s' [].
Proof.
  intros Hrun Hnc.
  assert (E : length (q_ s) + length (accepted (stopped_ s) h) =
              length (delivered h) + length (q_ s')).
  { induction Hrun as [s|s o r s1 w h s2 Hcall _ IH].
    - simpl. lia.
    - simpl in Hnc. apply andb_prop in Hnc as [Ho Hnc].
      apply negb_true_iff in Ho.
      pose proof (f_equal (@length T) (@call_conserves_items _ _ _ _ _ h Hcall Ho)) as E1.
      rewrite (delivered_cons o r h).
      rewrite !length_app in E1. rewrite length_app.
      specialize (IH Hnc). lia. }
  split; [lia|].
  unfold size, read, Deque.size. f_equal. lia.
Qed.

End HistoryFacts.

Section ShutdownFacts.

Variable T : Type.

Implicit Types (s : ThreadSafeQueue T) (o : op T) (h : history T).

Lemma call_sets_flag o s r s1 w :
  call o s = Returned r s1 w -> stopped_ s1 = stopped_ s || is_stop o.
Proof.
  rewrite call_eq. intros Hcall.
  destruct o; try destruct (q_ s); try destruct (stopped_ s) eqn:Es;
    inversion Hcall; subst; simpl; rewrite ?Es; reflexivity.
Qed.

(** X3: at the end of any history, [stopped()] returns true exactly when
    the flag was set at the start or the history has a [stop] call in
    it: no other call sets the flag and none clears it. *)
Theorem stopped_reflects_stop_calls s h s' :
  run s h s' ->
  stopped s' = Returned (stopped_ s || existsb (@is_stop T) (calls h)) s' [].
Proof.
  unfold stopped, read. intros Hrun. f_equal.
  induction Hrun as [s|s o r s1 w h s2 Hcall _ IH].
  - simpl. now rewrite orb_false_r.
  - rewrite IH, (call_sets_flag _ _ Hcall). simpl. now rewrite orb_assoc.
Qed.

Lemma stopped_step_shrinks o s s1 :
  stopped_ s = true -> step s o s1 ->
  exists removed, q_ s = removed ++ q_ s1.
Proof.
  intros Hs Hstep. inversion Hstep as [o0 s0 r s0' w Hcall]; subst.
  rewrite call_eq, Hs in Hcall.
  destruct o;
    try (destruct (q_ s) as [|x d] eqn:Eq; inversion Hcall; subst; simpl;
         solve [exists []; auto | exists [x]; auto]);
    inversion Hcall; subst; simpl.
  exists (q_ s). now rewrite app_nil_r.
Qed.

(** X4: once the flag is set the buffer only loses items from its front:
    whatever calls follow, the buffer they leave is a tail end of the one
    they found, so nothing pushed after [stop] ever enters it. *)
Theorem buffer_shrinks_after_stop s s' :
  stopped_ s = true ->
  reachable s s' ->
  exists removed, q_ s = removed ++ q_ s'.
Proof.
  intros Hs Hreach. induction Hreach as [s|s o s1 s2 Hstep _ IH].
  - exists []. reflexivity.
  - destruct (stopped_step_shrinks Hs Hstep) as [r1 E1].
    destruct (IH (step_keeps_stopped Hstep Hs)) as [r2 E2].
    exists (r1 ++ r2). now rewrite E1, E2, app_assoc.
Qed.

Lemma reachable_keeps_stopped s s' :
  reachable s s' -> stopped_ s = true -> stopped_ s' = true.
Proof.
  induction 1 as [s|s o s1 s2 Hstep _ IH]; intros Hs.
  - exact Hs.
  - apply IH. exact (step_keeps_stopped Hstep Hs).
Qed.

(** X5: the destructor's body returns with the buffer as it was, the
    flag set and all waiters signalled; in the state it leaves, and in
    every state calls made by threads still inside the queue can lead
    to, the wait predicate holds, so no [wait_pop] stays suspended. *)
Theorem destructor_releases_waiters s :
  exists s1,
    destructor s = Returned tt s1 [notify_all]
    /\ q_ s1 = q_ s
    /\ forall s', reachable s1 s' ->
         wait_pred s' = true /\ wait_pop s' <> Blocked.
Proof.
  exists (set_stopped true s).
  split; [reflexivity|]. split; [reflexivity|].
  intros s' Hreach.
  pose proof (reachable_keeps_stopped Hreach eq_refl) as Hs'.
  split.
  - unfold wait_pred. now rewrite Hs'.
  - rewrite wait_pop_eq, Hs'. destruct (q_ s'); discriminate.
Qed.

(** X6: no wake-up is lost.  A call that takes the queue from a state
    where the wait predicate fails to one where it holds is either a
    [push] onto an empty buffer, which sends [notify_one], or [stop],
    which sends [notify_all]. *)
Theorem no_lost_wakeup o s r s' w :
  call o s = Returned r s' w ->
  wait_pred s = false ->
  wait_pred s' = true ->
  (exists item,
      (o = OpPush item \/ o = OpPushMove item)
      /\ w = [notify_one] /\ q_ s' = [item] /\ stopped_ s' = false)
  \/ (o = OpStop /\ w = [notify_all]).
Proof.
  unfold wait_pred. rewrite call_eq. intros Hcall Hpre Hpost.
  apply orb_false_elim in Hpre as [Hs Hq].
  destruct (q_ s) as [|x d] eqn:Eq; [|discriminate Hq].
  rewrite Hs in Hcall.
  destruct o; inversion Hcall; subst; simpl in *;
    try (rewrite Hs, Eq in Hpost; discriminate Hpost);
    try (rewrite Hs in Hpost; discriminate Hpost).
  - left. exists item. auto.
  - left. exists item. auto.
  - right. auto.
Qed.

End ShutdownFacts.

Section CompositionFacts.

Variable T : Type.

Implicit Types (s : ThreadSafeQueue T) (o : op T) (h : history T) (x : T).

(** X7: [wait_pop] is [try_pop] behind the wait: where the wait
    predicate holds the two calls return the same result and leave the
    same state; where it fails [wait_pop] is suspended and [try_pop]
    returns [std::nullopt]. *)
Theorem wait_pop_is_guarded_try_pop s :
  (wait_pred s = true -> wait_pop s = try_pop s)
  /\ (wait_pred s = false ->
      wait_pop s = Blocked /\ try_pop s = Returned None s []).
Proof.
  unfold wait_pred. rewrite wait_pop_eq, try_pop_eq.
  destruct (q_ s) as [|x d]; destruct (stopped_ s); simpl;
    split; intros H; try discriminate H; auto.
Qed.

(** X8: on an empty queue that is not stopped [wait_pop] is suspended;
    after one [push] a [wait_pop] returns the pushed item and leaves the
    queue as it was before the push, so a second [wait_pop] is suspended
    again: one push serves one waiter. *)
Theorem push_serves_one_waiter s x :
  stopped_ s = false ->
  q_ s = [] ->
  wait_pop s = Blocked
  /\ (push x ;; wait_pop) s = Returned (Some x) s [notify_one]
  /\ (push x ;; wait_pop ;; wait_pop) s = Blocked.
Proof.
  intros Hs Hq.
  assert (Ew : wait_pop s = Blocked) by (now rewrite wait_pop_eq, Hq, Hs).
  assert (Ep : push x s = Returned tt (set_q [x] s) [notify_one]).
  { rewrite push_eq, Hs, Hq. reflexivity. }
  assert (Eb : wait_pop (set_q [x] s) = Returned (Some x) s []).
  { rewrite wait_pop_eq. simpl. rewrite <- (set_q_same s) at 2.
    now rewrite Hq. }
  split; [exact Ew|]. split.
  - rewrite (bind_returned _ Ep), Eb. reflexivity.
  - rewrite (bind_returned _ Ep), (bind_returned _ Eb), Ew. reflexivity.
Qed.

(** X9: for a call that returns, making it before [stop] or after
    [stop] leaves the same queue state, unless it is a [push] on a queue
    that is not stopped: made before [stop] that push leaves its item at
    the back of the buffer, made after [stop] it leaves the buffer as it
    was; the flag is set either way. *)
Theorem stop_commutes_with_all_but_push o s :
  call o s <> Blocked ->
  (state_after ((call o ;; stop) s) = state_after ((stop ;; call o) s)
   <-> is_push o && negb (stopped_ s) = false)
  /\ (forall item,
        o = OpPush item \/ o = OpPushMove item ->
        stopped_ s = false ->
        state_after ((call o ;; stop) s) =
          Some {| q_ := q_ s ++ [item]; stopped_ := true |}
        /\ state_after ((stop ;; call o) s) =
             Some {| q_ := q_ s; stopped_ := true |}).
Proof.
  intros Hnb. split.
  2:{ intros item Ho Hs. destruct s as [d b]. simpl in Hs. subst b.
      destruct Ho as [-> | ->]; split; reflexivity. }
  assert (Estop : state_after ((stop ;; call o) s) =
                  state_after (call o (set_stopped true s))).
  { rewrite (bind_returned _ (stop_eq s)).
    destruct (call o (set_stopped true s)); reflexivity. }
  rewrite Estop. clear Estop.
  rewrite call_eq in Hnb. unfold bind at 1. rewrite !call_eq.
  destruct s as [d b]. unfold set_stopped, set_q in *. simpl in *.
  destruct o; simpl;
    try (destruct d as [|x d]); try (destruct b); simpl;
    try (split; [reflexivity | reflexivity]);
    try (split; [intros _; reflexivity | intros _; reflexivity]);
    try (exfalso; apply Hnb; reflexivity).
  - split; [intros H; discriminate H | intros H; discriminate H].
  - split; [intros H | intros H; discriminate H].
    injection H as H. apply (f_equal (@length T)) in H.
    rewrite length_app in H. simpl in H. lia.
  - split; [intros H; discriminate H | intros H; discriminate H].
  - split; [intros H | intros H; discriminate H].
    injection H as H. apply (f_equal (@length T)) in H.
    rewrite length_app in H. simpl in H. lia.
Qed.

(** X10: [try_pop] returns [std::nullopt] exactly when [size()] returns
    0, and [wait_pop] is suspended exactly when [size()] returns 0 and
    [stopped()] returns false. *)
Theorem size_zero_iff_nothing_to_pop s :
  ((exists s' w, try_pop s = Returned None s' w) <->
     size s = Returned 0 s [])
  /\ (wait_pop s = Blocked <->
      size s = Returned 0 s [] /\ stopped s = Returned false s []).
Proof.
  rewrite try_pop_eq, wait_pop_eq. unfold size, stopped, read, Deque.size.
  destruct (q_ s) as [|x d]; simpl; split; split.
  - reflexivity.
  - intros _. now exists s, [].
  - destruct (stopped_ s); [discriminate|auto].
  - intros [_ H]. injection H as ->. reflexivity.
  - intros (s' & w & H). discriminate H.
  - discriminate.
  - discriminate.
  - intros [H _]. discriminate H.
Qed.

(** One call, [clear] included: what it hands out, what it leaves in the
    buffer and what is pushed later was in the buffer it found or is
    pushed from it on. *)
Lemma call_no_new_items o s r s1 w h x :
  call o s = Returned r s1 w ->
  In x (delivered [(o, r)] ++ q_ s1 ++ accepted (stopped_ s1) h) ->
  In x (q_ s ++ accepted (stopped_ s) ((o, r) :: h)).
Proof.
  intros Hcall Hin.
  destruct (is_clear o) eqn:Ho.
  - destruct o; try discriminate Ho.
    rewrite call_eq in Hcall. inversion Hcall; subst.
    simpl in Hin |- *. apply in_or_app. now right.
  - now rewrite (@call_conserves_items _ _ _ _ _ _ h Hcall Ho).
Qed.

(** X11: along any history, with [clear] calls or without, every item
    handed out and every item still buffered at the end was in the
    buffer at the start or was pushed while the flag was clear: the queue
    makes up no item, and hands out none pushed after [stop]. *)
Theorem history_makes_up_no_items s h s' :
  run s h s' ->
  forall x,
    In x (delivered h ++ q_ s') ->
    In x (q_ s ++ accepted (stopped_ s) h).
Proof.
  induction 1 as [s|s o r s1 w h s2 Hcall _ IH]; intros x Hin.
  - simpl in *. now rewrite app_nil_r.
  - apply (@call_no_new_items o s r s1 w h x Hcall).
    rewrite delivered_cons, <- app_assoc in Hin.
    apply in_app_or in Hin as [Hin|Hin]; apply in_or_app.
    + now left.
    + right. now apply IH.
Qed.

End CompositionFacts.

(** ** The history theorems at concrete histories *)

Lemma run_history_with_stop :
  run init history_with_stop {| q_ := []; stopped_ := true |}.
Proof.
  unfold history_with_stop.
  repeat (eapply run_call; [reflexivity|]). apply run_done.
Defined.

Lemma run_history_with_clear :
  run init history_with_clear init.
Proof.
  unfold history_with_clear.
  repeat (eapply run_call; [reflexivity|]). apply run_done.
Defined.

Lemma history_conserves_items_witness :
  run init history_with_stop {| q_ := []; stopped_ := true |}
  /\ forallb (fun o => negb (is_clear o)) (calls history_with_stop) = true
  /\ q_ init ++ accepted (stopped_ (@init nat)) history_with_stop =
       delivered history_with_stop ++ q_ {| q_ := []; stopped_ := true |}.
Proof.
  split; [exact run_history_with_stop|]. split; [reflexivity|].
  apply (history_conserves_items run_history_with_stop). reflexivity.
Defined.

Lemma size_accounts_for_history_witness :
  run init history_with_stop {| q_ := []; stopped_ := true |}
  /\ forallb (fun o => negb (is_clear o)) (calls history_with_stop) = true
  /\ size {| q_ := @nil nat; stopped_ := true |} =
       Returned (0 + 2 - 2) {| q_ := []; stopped_ := true |} [].
Proof.
  split; [exact run_history_with_stop|]. split; [reflexivity|].
  apply (size_accounts_for_history run_history_with_stop). reflexivity.
Defined.

Lemma stopped_reflects_stop_calls_witness :
  run init history_with_stop {| q_ := []; stopped_ := true |}
  /\ stopped {| q_ := @nil nat; stopped_ := true |} =
       Returned true {| q_ := []; stopped_ := true |} [].
Proof.
  split; [exact run_history_with_stop|].
  apply (stopped_reflects_stop_calls run_history_with_stop).
Defined.

Lemma buffer_shrinks_after_stop_witness :
  stopped_ {| q_ := [4; 5]; stopped_ := true |} = true
  /\ reachable {| q_ := [4; 5]; stopped_ := true |}
               {| q_ := [5]; stopped_ := true |}
  /\ exists removed, [4; 5] = removed ++ [5].
Proof.
  assert (R : reachable {| q_ := [4; 5]; stopped_ := true |}
                        {| q_ := [5]; stopped_ := true |}).
  { apply reach_step with (o := OpPush 9)
                          (s1 := {| q_ := [4; 5]; stopped_ := true |}).
    { apply step_returned with (r := RVoid) (w := []). reflexivity. }
    apply reach_step with (o := OpTryPop)
                          (s1 := {| q_ := [5]; stopped_ := true |}).
    { apply step_returned with (r := ROptional (Some 4)) (w := []).
      reflexivity. }
    apply reach_here. }
  split; [reflexivity|]. split; [exact R|].
  apply (@buffer_shrinks_after_stop nat
           {| q_ := [4; 5]; stopped_ := true |}
           {| q_ := [5]; stopped_ := true |} eq_refl R).
Defined.

Lemma destructor_releases_waiters_witness :
  exists s1,
    destructor {| q_ := [1]; stopped_ := false |} =
      Returned tt s1 [notify_all]
    /\ reachable s1 s1
    /\ wait_pop s1 <> Blocked.
Proof.
  destruct (destructor_releases_waiters {| q_ := [1]; stopped_ := false |})
    as (s1 & E & _ & H).
  exists s1. split; [exact E|]. split; [apply reach_here|].
  apply (H s1). apply reach_here.
Defined.

Lemma no_lost_wakeup_witness :
  call (OpPush 7) init = Returned RVoid {| q_ := [7]; stopped_ := false |}
                                  [notify_one]
  /\ wait_pred (@init nat) = false
  /\ wait_pred {| q_ := [7]; stopped_ := false |} = true
  /\ ((exists item,
          (OpPush 7 = OpPush item \/ OpPush 7 = OpPushMove item)
          /\ [notify_one] = [notify_one]
          /\ q_ {| q_ := [7]; stopped_ := false |} = [item]
          /\ stopped_ {| q_ := [7]; stopped_ := false |} = false)
      \/ (OpPush 7 = OpStop /\ [notify_one] = [notify_all])).
Proof.
  split; [reflexivity|]. split; [reflexivity|]. split; [reflexivity|].
  apply (@no_lost_wakeup nat (OpPush 7) init RVoid
           {| q_ := [7]; stopped_ := false |} [notify_one]);
    reflexivity.
Defined.

Lemma wait_pop_is_guarded_try_pop_witness :
  wait_pred {| q_ := [1]; stopped_ := false |} = true
  /\ wait_pop {| q_ := [1]; stopped_ := false |} =
       try_pop {| q_ := [1]; stopped_ := false |}
  /\ wait_pred (@init nat) = false
  /\ wait_pop (@init nat) = Blocked.
Proof.
  split; [reflexivity|]. split.
  - apply (proj1 (wait_pop_is_guarded_try_pop
                    {| q_ := [1]; stopped_ := false |})).
    reflexivity.
  - split; [reflexivity|].
    apply (proj2 (wait_pop_is_guarded_try_pop (@init nat))). reflexivity.
Defined.

Lemma push_serves_one_waiter_witness :
  stopped_ (@init nat) = false
  /\ q_ (@init nat) = []
  /\ (push 5 ;; wait_pop) init = Returned (Some 5) init [notify_one]
  /\ (push 5 ;; wait_pop ;; wait_pop) init = Blocked.
Proof.
  split; [reflexivity|]. split; [reflexivity|].
  apply (@push_serves_one_waiter nat init 5); reflexivity.
Defined.

Lemma stop_commutes_with_all_but_push_witness :
  call OpTryPop {| q_ := [1; 2]; stopped_ := false |} <> Blocked
  /\ is_push (@OpTryPop nat)
       && negb (stopped_ {| q_ := [1; 2]; stopped_ := false |}) = false
  /\ state_after ((call OpTryPop ;; stop) {| q_ := [1; 2]; stopped_ := false |}) =
       state_after ((stop ;; call OpTryPop) {| q_ := [1; 2]; stopped_ := false |})
  /\ call (OpPush 3) {| q_ := [1; 2]; stopped_ := false |} <> Blocked
  /\ stopped_ {| q_ := [1; 2]; stopped_ := false |} = false
  /\ state_after ((call (OpPush 3) ;; stop) {| q_ := [1; 2]; stopped_ := false |}) =
       Some {| q_ := [1; 2; 3]; stopped_ := true |}
  /\ state_after ((stop ;; call (OpPush 3)) {| q_ := [1; 2]; stopped_ := false |}) =
       Some {| q_ := [1; 2]; stopped_ := true |}.
Proof.
  assert (Hnb : call OpTryPop {| q_ := [1; 2]; stopped_ := false |} <> Blocked)
    by (simpl; discriminate).
  assert (Hnb' : call (OpPush 3) {| q_ := [1; 2]; stopped_ := false |} <> Blocked)
    by (simpl; discriminate).
  split; [exact Hnb|]. split; [reflexivity|]. split.
  { apply (proj2 (proj1 (@stop_commutes_with_all_but_push nat OpTryPop
                           {| q_ := [1; 2]; stopped_ := false |} Hnb))).
    reflexivity. }
  split; [exact Hnb'|]. split; [reflexivity|].
  apply (proj2 (@stop_commutes_with_all_but_push nat (OpPush 3)
                  {| q_ := [1; 2]; stopped_ := false |} Hnb') 3).
  - left. reflexivity.
  - reflexivity.
Defined.

Lemma size_zero_iff_nothing_to_pop_witness :
  size (@init nat) = Returned 0 init []
  /\ stopped (@init nat) = Returned false init []
  /\ wait_pop (@init nat) = Blocked
  /\ exists s' w, try_pop (@init nat) = Returned None s' w.
Proof.
  split; [reflexivity|]. split; [reflexivity|]. split.
  - apply (proj2 (proj2 (size_zero_iff_nothing_to_pop (@init nat)))).
    split; reflexivity.
  - apply (proj2 (proj1 (size_zero_iff_nothing_to_pop (@init nat)))).
    reflexivity.
Defined.

Lemma history_makes_up_no_items_witness :
  run init history_with_clear init
  /\ In 2 (delivered history_with_clear ++ q_ (@init nat))
  /\ In 2 (q_ init ++ accepted (stopped_ (@init nat)) history_with_clear).
Proof.
  split; [exact run_history_with_clear|].
  assert (Hin : In 2 (delivered history_with_clear ++ q_ (@init nat)))
    by (simpl; auto).
  split; [exact Hin|].
  apply (history_makes_up_no_items run_history_with_clear 2 Hin).
Defined.

(** ** Exceptions passing through the methods *)

Section Exceptions.

Variable T : Type.

Implicit Types (E : Exn.env T) (s : ThreadSafeQueue T) (o : op T).

(** Where nothing throws, the methods of [Exn] are the methods on plain
    values. *)
Lemma exn_call_refines E o s :
  Exn.lock_throws E = false ->
  (forall d, Exn.alloc_throws E d = false) ->
  (forall x, Exn.copy_throws E x = false) ->
  (forall x, Exn.move_throws E x = false) ->
  Exn.call E o s = fmap (@Ok (retval T)) (call o) s.
Proof.
  intros Hl Ha Hc Hm.
  destruct o; destruct s as [[|x d] [|]];
    cbv [Exn.call Exn.push Exn.push_move Exn.wait_pop Exn.try_pop Exn.stop
         Exn.clear Exn.size Exn.stopped Exn.lock_m Exn.q_push_back_copy
         Exn.q_push_back_move Exn.take_front Exn.copy_T Exn.move_T
         Exn.bindX Exn.lift Exn.retX Exn.raise fmap bind ret read];
    rewrite Hl; cbn; rewrite ?Ha; cbn; rewrite ?Hc, ?Hm; cbn;
    rewrite ?Hm; reflexivity.
Qed.


End Exceptions.


